(** * A verification development of the RPC chat room (server.go, client.go)

    The server keeps one transcript, the Go slice [ChatServer.history], behind
    a [sync.Mutex].  Both RPC handlers take the mutex for their whole body, so
    each call is one atomic step on the server state; concurrent sessions are
    modelled as the sequential composition of these steps in the order in
    which the calls acquired the lock.

    Go slices are modelled together with their backing arrays: a small heap
    maps locations to arrays, a slice is a (pointer, length, capacity) triple,
    and [append], [make] and [copy] are written out with Go's semantics, so
    that aliasing between the transcript and the replies is visible. *)

From Stdlib Require Import String Ascii Sorted.
From stdpp Require Import base gmap list strings.

Open Scope nat_scope.

(* ===================================================================== *)
(** ** Go slices over a heap of backing arrays *)
(* ===================================================================== *)

Module GoSlice.

Definition loc := N.

(** A slice header: [ptr] is [None] for the nil slice. *)
Record slice := mkSlice { sptr : option loc; slen : nat; scap : nat }.

Definition nil_slice : slice := mkSlice None 0 0.

(** The heap of backing arrays of [string]s and the next fresh location. *)
Record heap := mkHeap { mem : gmap loc (list string); next : loc }.

Definition empty_heap : heap := mkHeap ∅ 0%N.

(** Allocation of a new backing array. *)
Definition alloc (h : heap) (a : list string) : heap * loc :=
  (mkHeap (<[next h := a]> (mem h)) (N.succ (next h)), next h).

(** The backing array a slice points to. *)
Definition backing (h : heap) (s : slice) : list string :=
  match sptr s with
  | None => []
  | Some p => default [] (mem h !! p)
  end.

(** The elements [s[0 .. len(s))] of a slice. *)
Definition contents (h : heap) (s : slice) : list string :=
  take (slen s) (backing h s).

(** [s[i] = v]: an in-place store into the backing array; Go panics on an
    index out of [0 .. len(s)), which is [None] here. *)
Definition store (h : heap) (s : slice) (i : nat) (v : string) : option heap :=
  match sptr s with
  | Some p =>
      if decide (i < slen s) then
        match mem h !! p with
        | Some a => Some (mkHeap (<[p := <[i := v]> a]> (mem h)) (next h))
        | None => None
        end
      else None
  | None => None
  end.

(** The capacity chosen by the runtime when [append] outgrows a slice
    ([runtime.nextslicecap]: doubling below 256, then growth by a quarter
    plus 192; rounding to malloc size classes is left out). *)
Fixpoint grow_from (fuel newLen c : nat) : nat :=
  match fuel with
  | O => c
  | S f => if decide (newLen <= c) then c else grow_from f newLen (c + (c + 768) / 4)
  end.

Definition nextslicecap (newLen oldCap : nat) : nat :=
  let doublecap := oldCap + oldCap in
  if decide (doublecap < newLen) then newLen
  else if decide (oldCap < 256) then doublecap
  else grow_from newLen newLen oldCap.

(** [append(s, x)]: in place when the capacity allows, otherwise into a
    freshly allocated array holding the old elements. *)
Definition append_grow (h : heap) (s : slice) (x : string) : heap * slice :=
  let c := nextslicecap (S (slen s)) (scap s) in
  let '(h', l) := alloc h (contents h s ++ [x] ++ replicate (c - S (slen s)) EmptyString) in
  (h', mkSlice (Some l) (S (slen s)) c).

Definition append (h : heap) (s : slice) (x : string) : heap * slice :=
  match sptr s with
  | Some p =>
      match mem h !! p with
      | Some a =>
          if decide (slen s < scap s) then
            (mkHeap (<[p := <[slen s := x]> a]> (mem h)) (next h),
             mkSlice (Some p) (S (slen s)) (scap s))
          else append_grow h s x
      | None => append_grow h s x
      end
  | None => append_grow h s x
  end.

(** [make([]string, n)]: a fresh array of [n] zero values. *)
Definition make (h : heap) (n : nat) : heap * slice :=
  let '(h', l) := alloc h (replicate n EmptyString) in (h', mkSlice (Some l) n n).

(** [copy(dst, src)]: copies [min(len(dst), len(src))] elements and returns
    their number. *)
Definition copy (h : heap) (dst src : slice) : heap * nat :=
  let k := Nat.min (slen dst) (slen src) in
  match sptr dst with
  | Some p =>
      let a := backing h dst in
      (mkHeap (<[p := take k (contents h src) ++ drop k a]> (mem h)) (next h), k)
  | None => (h, k)
  end.

End GoSlice.

Import GoSlice.

(* ===================================================================== *)
(** ** The server: [ChatServer], [SendMessage], [GetHistory] *)
(* ===================================================================== *)

Record MessageArgs := mkMessageArgs { Name : string; Message : string }.

Record HistoryReply := mkHistoryReply { History : slice }.

(** The Go [error] result: [None] is [nil]. *)
Definition error := option string.

(** The server object with the heap it lives in; the mutex is not a field
    here: holding it for the whole handler makes each handler one step. *)
Record ChatServer := mkChatServer { hp : heap; history : slice }.

(** [server := new(ChatServer)]: the zero value, a nil [history]. *)
Definition new_ChatServer : ChatServer := mkChatServer empty_heap nil_slice.

(** [formattedMsg := args.Name + ": " + args.Message] *)
Definition formatMsg (args : MessageArgs) : string :=
  (Name args ++ ": " ++ Message args)%string.

(** [reply.History = make([]string, len(s.history)); copy(reply.History, s.history)] *)
Definition snapshot (h : heap) (hist : slice) : heap * HistoryReply :=
  let '(h1, r) := make h (slen hist) in
  let '(h2, _) := copy h1 r hist in
  (h2, mkHistoryReply r).

(** [func (s *ChatServer) SendMessage(args *MessageArgs, reply *HistoryReply) error]
    (the [log.Printf] audit line has no effect on the state). *)
Definition SendMessage (s : ChatServer) (args : MessageArgs)
  : ChatServer * HistoryReply * error :=
  let formattedMsg := formatMsg args in
  let '(h1, hist1) := append (hp s) (history s) formattedMsg in
  let '(h2, reply) := snapshot h1 hist1 in
  (mkChatServer h2 hist1, reply, None).

(** [func (s *ChatServer) GetHistory(_ *struct{}, reply *HistoryReply) error] *)
Definition GetHistory (s : ChatServer) : ChatServer * HistoryReply * error :=
  let '(h1, reply) := snapshot (hp s) (history s) in
  (mkChatServer h1 (history s), reply, None).

(** The two remote calls, and a run of calls in lock-acquisition order. *)
Inductive call := Submit (args : MessageArgs) | Fetch.

Definition run_call (s : ChatServer) (c : call) : ChatServer * HistoryReply * error :=
  match c with
  | Submit args => SendMessage s args
  | Fetch => GetHistory s
  end.

Definition server_of (r : ChatServer * HistoryReply * error) : ChatServer :=
  let '(s, _, _) := r in s.

Fixpoint run_calls (s : ChatServer) (cs : list call) : ChatServer :=
  match cs with
  | [] => s
  | c :: cs' => run_calls (server_of (run_call s c)) cs'
  end.

Fixpoint submits (cs : list call) : list MessageArgs :=
  match cs with
  | [] => []
  | Submit a :: cs' => a :: submits cs'
  | Fetch :: cs' => submits cs'
  end.

(** The transcript: the elements of [s.history]. *)
Definition transcript (s : ChatServer) : list string := contents (hp s) (history s).

(** The lines of a reply. *)
Definition reply_lines (h : heap) (r : HistoryReply) : list string := contents h (History r).

(** Well-formed slice: the nil slice, or a pointer to an allocated array whose
    length is the capacity, with [len <= cap]. *)
Definition slice_ok (h : heap) (s : slice) : Prop :=
  match sptr s with
  | None => slen s = 0 /\ scap s = 0
  | Some p =>
      (p < next h)%N /\
      match mem h !! p with
      | Some a => length a = scap s /\ slen s <= scap s
      | None => False
      end
  end.

Definition server_ok (s : ChatServer) : Prop := slice_ok (hp s) (history s).

Definition alice_hi := mkMessageArgs "alice" "hi".
Definition bob_hello := mkMessageArgs "bob" "hello".

Example scenario2 :
  let '(s1, _, _) := SendMessage new_ChatServer alice_hi in
  let '(s2, r2, _) := SendMessage s1 bob_hello in
  reply_lines (hp s2) r2 = ["alice: hi"; "bob: hello"]%string.
Proof. reflexivity. Qed.

(* ===================================================================== *)
(** ** Lemmas on the slice operations *)
(* ===================================================================== *)

Section SliceLemmas.

Lemma grow_from_ge f n c : Nat.min n (c + f) <= grow_from f n c.
Proof.
  revert c. induction f as [|f IH]; intros c; cbn [grow_from].
  - lia.
  - case_decide; [lia|].
    specialize (IH (c + (c + 768) / 4)).
    assert (1 <= (c + 768) / 4).
    { pose proof (Nat.div_mod (c + 768) 4 ltac:(lia)).
      pose proof (Nat.mod_upper_bound (c + 768) 4 ltac:(lia)). lia. }
    lia.
Qed.

Lemma nextslicecap_ge n c : n <= nextslicecap n c.
Proof.
  unfold nextslicecap. repeat case_decide; try lia.
  pose proof (grow_from_ge n n c). lia.
Qed.

Lemma contents_length h s : slice_ok h s -> length (contents h s) = slen s.
Proof.
  unfold slice_ok, contents, backing. destruct (sptr s) as [p|].
  - intros [_ Hp]. destruct (mem h !! p) as [a|]; [|done].
    simpl. rewrite length_take. lia.
  - intros [-> _]. reflexivity.
Qed.

(** Contents and well-formedness only depend on the array the slice points to. *)
Lemma contents_frame h h' s :
  (forall p, sptr s = Some p -> mem h' !! p = mem h !! p) ->
  contents h' s = contents h s.
Proof.
  unfold contents, backing. destruct (sptr s) as [p|]; [|done].
  intros H. by rewrite (H p eq_refl).
Qed.

Lemma slice_ok_frame h h' s :
  slice_ok h s -> (next h <= next h')%N ->
  (forall p, sptr s = Some p -> mem h' !! p = mem h !! p) ->
  slice_ok h' s.
Proof.
  unfold slice_ok. destruct (sptr s) as [p|]; [|done].
  intros [Hlt Ha] Hn H. rewrite (H p eq_refl). split; [lia|done].
Qed.

Lemma append_grow_spec h s x :
  slice_ok h s ->
  let '(h', s') := append_grow h s x in
  slice_ok h' s' /\ contents h' s' = contents h s ++ [x] /\
  next h' = N.succ (next h) /\
  (forall q, q <> next h -> mem h' !! q = mem h !! q) /\
  sptr s' = Some (next h).
Proof.
  intros Hok. pose proof (contents_length h s Hok) as Hlen.
  pose proof (nextslicecap_ge (S (slen s)) (scap s)) as Hc.
  unfold append_grow, alloc; simpl. split; [|split; [|split; [|split]]].
  - unfold slice_ok; simpl. split; [lia|].
    rewrite lookup_insert_eq. split; [|lia].
    rewrite length_app; cbn [length]; rewrite length_replicate. lia.
  - unfold contents at 1, backing at 1; simpl. rewrite lookup_insert_eq; simpl.
    rewrite take_app, Hlen, take_ge by lia.
    by replace (S (slen s) - slen s) with 1 by lia.
  - done.
  - intros q Hq. by rewrite lookup_insert_ne.
  - done.
Qed.

Lemma append_spec h s x :
  slice_ok h s ->
  let '(h', s') := append h s x in
  slice_ok h' s' /\ contents h' s' = contents h s ++ [x] /\
  (next h <= next h')%N /\
  (forall q, (q < next h)%N -> Some q <> sptr s -> mem h' !! q = mem h !! q) /\
  (sptr s' = sptr s \/ sptr s' = Some (next h)).
Proof.
  intros Hok.
  assert (Hgrow : let '(h', s') := append_grow h s x in
    slice_ok h' s' /\ contents h' s' = contents h s ++ [x] /\
    (next h <= next h')%N /\
    (forall q, (q < next h)%N -> Some q <> sptr s -> mem h' !! q = mem h !! q) /\
    (sptr s' = sptr s \/ sptr s' = Some (next h))).
  { pose proof (append_grow_spec h s x Hok) as G.
    destruct (append_grow h s x) as [h' s'].
    destruct G as (G1 & G2 & G3 & G4 & G5).
    split; [done|]. split; [done|]. split; [lia|]. split; [|by right].
    intros q Hq _. apply G4. intros Heq. subst. lia. }
  unfold append. pose proof Hok as Hok'.
  unfold slice_ok in Hok'. destruct (sptr s) as [p|] eqn:Ep; [|exact Hgrow].
  destruct Hok' as [Hp Ha]. destruct (mem h !! p) as [a|] eqn:Ea; [|done].
  destruct Ha as [Hla Hle].
  case_decide as Hlt; [|exact Hgrow].
  split; [|split; [|split; [|split]]]; simpl.
  - unfold slice_ok; simpl. split; [done|].
    rewrite lookup_insert_eq. rewrite length_insert. lia.
  - unfold contents, backing; simpl. rewrite Ep, lookup_insert_eq, Ea; simpl.
    rewrite (take_S_r _ _ x); [|apply list_lookup_insert_eq; lia].
    by rewrite take_insert_ge by lia.
  - lia.
  - intros q _ Hq. rewrite lookup_insert_ne; [done|]. intros ->. by apply Hq.
  - by left.
Qed.

Lemma slice_ok_ptr_fresh h s :
  slice_ok h s -> forall p, sptr s = Some p -> (p < next h)%N.
Proof. unfold slice_ok. intros Hok p Hp. rewrite Hp in Hok. by destruct Hok. Qed.

(** [make] followed by [copy] from [hist]: a fresh array with the elements
    of [hist], and nothing else of the heap touched. *)
Lemma snapshot_spec h hist :
  slice_ok h hist ->
  let '(h', r) := snapshot h hist in
  slice_ok h' hist /\ contents h' hist = contents h hist /\
  slice_ok h' (History r) /\ reply_lines h' r = contents h hist /\
  sptr (History r) = Some (next h) /\ next h' = N.succ (next h) /\
  (forall q, q <> next h -> mem h' !! q = mem h !! q).
Proof.
  intros Hok. pose proof (contents_length h hist Hok) as Hlen.
  pose proof (slice_ok_ptr_fresh h hist Hok) as Hfresh.
  set (h1 := mkHeap (<[next h := replicate (slen hist) EmptyString]> (mem h)) (N.succ (next h))).
  assert (Hc1 : contents h1 hist = contents h hist).
  { apply contents_frame. intros p Hp. unfold h1; cbn [mem]. rewrite lookup_insert_ne; [done|].
    specialize (Hfresh p Hp). intros Heq. subst. lia. }
  set (h2 := mkHeap (<[next h := contents h hist]> (mem h)) (N.succ (next h))).
  assert (Hsnap : snapshot h hist = (h2, mkHistoryReply (mkSlice (Some (next h)) (slen hist) (slen hist)))).
  { unfold snapshot, make, alloc, copy. fold h1. cbn [sptr slen fst snd].
    rewrite Nat.min_id, Hc1.
    unfold h2, backing; cbn [mem next sptr h1]. rewrite insert_insert_eq, lookup_insert_eq. simpl.
    rewrite drop_replicate, Nat.sub_diag, app_nil_r, take_ge by lia. done. }
  rewrite Hsnap.
  assert (Hframe : forall q, q <> next h -> mem h2 !! q = mem h !! q).
  { intros q Hq. unfold h2; cbn [mem]. by rewrite lookup_insert_ne. }
  assert (Hhist : forall p, sptr hist = Some p -> mem h2 !! p = mem h !! p).
  { intros p Hp. apply Hframe. specialize (Hfresh p Hp). intros Heq. subst. lia. }
  split; [|split; [|split; [|split; [|split; [|split]]]]].
  - apply (slice_ok_frame h); [done| simpl; lia | done].
  - by apply contents_frame.
  - unfold slice_ok; simpl. split; [lia|]. rewrite lookup_insert_eq. lia.
  - unfold reply_lines, contents, backing; simpl. rewrite lookup_insert_eq; simpl.
    rewrite take_ge; [done|]. lia.
  - done.
  - done.
  - exact Hframe.
Qed.

End SliceLemmas.

(* ===================================================================== *)
(** ** One locked call, and runs of calls *)
(* ===================================================================== *)

Section Calls.

Definition appended (c : call) : list string :=
  match c with
  | Submit args => [formatMsg args]
  | Fetch => []
  end.

(** Everything one handler does, as seen from the heap: the new transcript,
    the reply, and the locations it may have written. *)
Lemma run_call_spec s c :
  server_ok s ->
  let '(s', r, e) := run_call s c in
  server_ok s' /\ e = None /\
  transcript s' = transcript s ++ appended c /\
  reply_lines (hp s') r = transcript s' /\
  (next (hp s) < next (hp s'))%N /\
  (forall q, (q < next (hp s))%N -> Some q <> sptr (history s) ->
             mem (hp s') !! q = mem (hp s) !! q) /\
  (sptr (history s') = sptr (history s) \/
   exists q, sptr (history s') = Some q /\ (next (hp s) <= q)%N) /\
  (exists l, sptr (History r) = Some l /\ Some l <> sptr (history s') /\
             (l < next (hp s'))%N).
Proof.
  intros Hok. destruct c as [args|]; cbn [run_call appended].
  - unfold SendMessage.
    pose proof (append_spec (hp s) (history s) (formatMsg args) Hok) as A.
    destruct (append (hp s) (history s) (formatMsg args)) as [h1 hist1].
    destruct A as (A1 & A2 & A3 & A4 & A5).
    pose proof (snapshot_spec h1 hist1 A1) as B.
    destruct (snapshot h1 hist1) as [h2 r].
    destruct B as (B1 & B2 & B3 & B4 & B5 & B6 & B7).
    unfold server_ok, transcript; cbn [hp history].
    split; [done|]. split; [done|]. split; [by rewrite B2|].
    split; [by rewrite B4|]. split; [lia|].
    split; [|split].
    + intros q Hq Hne. rewrite B7; [|intros Heq; subst; lia]. by apply A4.
    + destruct A5 as [A5|A5]; [by left|right]. exists (next (hp s)). split; [done|lia].
    + exists (next h1). split; [done|]. split; [|lia].
      intros Heq. pose proof (slice_ok_ptr_fresh h1 hist1 A1 (next h1) (eq_sym Heq)). lia.
  - unfold GetHistory.
    pose proof (snapshot_spec (hp s) (history s) Hok) as B.
    destruct (snapshot (hp s) (history s)) as [h2 r].
    destruct B as (B1 & B2 & B3 & B4 & B5 & B6 & B7).
    unfold server_ok, transcript; cbn [hp history].
    split; [done|]. split; [done|]. split; [by rewrite B2, app_nil_r|].
    split; [by rewrite B4, B2|]. split; [lia|].
    split; [|split].
    + intros q Hq _. apply B7. intros Heq; subst; lia.
    + by left.
    + exists (next (hp s)). split; [done|]. split; [|lia].
      intros Heq. pose proof (slice_ok_ptr_fresh _ _ Hok (next (hp s)) (eq_sym Heq)). lia.
Qed.

Lemma run_call_ok s c : server_ok s -> server_ok (server_of (run_call s c)).
Proof.
  intros Hok. pose proof (run_call_spec s c Hok) as H.
  destruct (run_call s c) as [[s' r] e]. by destruct H.
Qed.

Lemma run_calls_ok s cs : server_ok s -> server_ok (run_calls s cs).
Proof.
  revert s. induction cs as [|c cs IH]; intros s Hok; [done|].
  simpl. apply IH. by apply run_call_ok.
Qed.

Lemma run_calls_transcript s cs :
  server_ok s ->
  transcript (run_calls s cs) = transcript s ++ map formatMsg (submits cs).
Proof.
  revert s. induction cs as [|c cs IH]; intros s Hok; simpl.
  - by rewrite app_nil_r.
  - pose proof (run_call_spec s c Hok) as H.
    destruct (run_call s c) as [[s' r] e] eqn:E.
    destruct H as (H1 & _ & H3 & _). simpl.
    rewrite IH by done. rewrite H3, <- app_assoc.
    destruct c; simpl; done.
Qed.

(** A location allocated before, other than the transcript's array, is never
    written by any later run of calls. *)
Lemma run_calls_frame s cs q :
  server_ok s -> (q < next (hp s))%N -> Some q <> sptr (history s) ->
  mem (hp (run_calls s cs)) !! q = mem (hp s) !! q.
Proof.
  revert s. induction cs as [|c cs IH]; intros s Hok Hq Hne; [done|].
  simpl. pose proof (run_call_spec s c Hok) as H.
  destruct (run_call s c) as [[s' r] e] eqn:E.
  destruct H as (H1 & _ & _ & _ & H5 & H6 & H7 & _). simpl.
  rewrite IH; [by apply H6|done|lia|].
  destruct H7 as [H7|(q' & H7 & Hle)]; [by rewrite H7|].
  rewrite H7. intros Heq. injection Heq as ->. lia.
Qed.

(** ... and such a location never becomes the transcript's array. *)
Lemma run_calls_apart s cs q :
  server_ok s -> (q < next (hp s))%N -> Some q <> sptr (history s) ->
  (q < next (hp (run_calls s cs)))%N /\ Some q <> sptr (history (run_calls s cs)).
Proof.
  revert s. induction cs as [|c cs IH]; intros s Hok Hq Hne; [done|].
  simpl. pose proof (run_call_spec s c Hok) as H.
  destruct (run_call s c) as [[s' r] e] eqn:E.
  destruct H as (H1 & _ & _ & _ & H5 & _ & H7 & _). simpl.
  apply IH; [done|lia|].
  destruct H7 as [H7|(q' & H7 & Hle)]; [by rewrite H7|].
  rewrite H7. intros Heq. injection Heq as ->. lia.
Qed.

End Calls.

(* ===================================================================== *)
(** ** The client: [strings.TrimSpace] and the reserved input [exit] *)
(* ===================================================================== *)

Module Client.

Definition bytes (ns : list nat) : list ascii := map ascii_of_nat ns.

(** The UTF-8 encodings of the runes for which [unicode.IsSpace] holds:
    the ASCII spaces [\t \n \v \f \r ' '], then U+0085, U+00A0, U+1680,
    U+2000 .. U+200A, U+2028, U+2029, U+202F, U+205F and U+3000. *)
Definition space_runes : list (list ascii) :=
  map bytes
    ([[9]; [10]; [11]; [12]; [13]; [32];
      [194; 133]; [194; 160]; [225; 154; 128]] ++
     map (fun k => [226; 128; 128 + k]) (seq 0 11) ++
     [[226; 128; 168]; [226; 128; 169]; [226; 128; 175];
      [226; 129; 159]; [227; 128; 128]]).

Fixpoint is_prefix (r l : list ascii) : bool :=
  match r, l with
  | [], _ => true
  | a :: r', b :: l' => Ascii.eqb a b && is_prefix r' l'
  | _ :: _, [] => false
  end.

(** The length of the space rune [l] starts with, if any. *)
Definition leading_space (runes : list (list ascii)) (l : list ascii) : option nat :=
  match List.find (fun r => is_prefix r l) runes with
  | Some r => Some (length r)
  | None => None
  end.

(** Drop leading runes of [runes] (each step drops at least one byte, so
    [length l] steps suffice). *)
Fixpoint trim_left_fuel (runes : list (list ascii)) (fuel : nat) (l : list ascii) : list ascii :=
  match fuel with
  | O => l
  | S f =>
      match leading_space runes l with
      | Some (S k) => trim_left_fuel runes f (drop (S k) l)
      | _ => l
      end
  end.

(** [strings.TrimLeftFunc(s, unicode.IsSpace)] *)
Definition trim_left (l : list ascii) : list ascii :=
  trim_left_fuel space_runes (length l) l.

(** [strings.TrimRightFunc(s, unicode.IsSpace)]: the same on the reversed
    bytes, with the reversed encodings ([utf8.DecodeLastRuneInString] decodes
    a space rune exactly when its encoding is a suffix). *)
Definition trim_right (l : list ascii) : list ascii :=
  rev (trim_left_fuel (map (@rev ascii) space_runes) (length l) (rev l)).

(** [strings.TrimSpace]: its ASCII fast path and its fall-back to
    [TrimFunc(s, unicode.IsSpace)] both give the left then right trim. *)
Definition TrimSpace (s : string) : string :=
  string_of_list_ascii (trim_right (trim_left (list_ascii_of_string s))).

(** A one-byte string. *)
Definition byte_str (n : nat) : string := String (ascii_of_nat n) EmptyString.

Example TrimSpace_ex1 : TrimSpace ("  exit" ++ byte_str 10)%string = "exit"%string.
Proof. reflexivity. Qed.

Example TrimSpace_ex2 : TrimSpace (" " ++ byte_str 9 ++ " " ++ byte_str 10)%string = EmptyString.
Proof. reflexivity. Qed.

(** U+00A0 and U+3000 around a word are trimmed, a lone 0xC2 byte is not. *)
Example TrimSpace_ex3 :
  TrimSpace (string_of_list_ascii (bytes [194; 160; 104; 105; 227; 128; 128])) = "hi"%string /\
  TrimSpace (string_of_list_ascii (bytes [194; 104])) = string_of_list_ascii (bytes [194; 104]).
Proof. split; reflexivity. Qed.

(** What the chat loop does with one line read by [reader.ReadString('\n')]. *)
Inductive action := Quit | Send (args : MessageArgs).

(** [message = strings.TrimSpace(message); if message == "exit" { break };
    args := &MessageArgs{Name: name, Message: message}; client.Call(...)] *)
Definition client_step (name line : string) : action :=
  let message := TrimSpace line in
  if String.eqb message "exit" then Quit
  else Send (mkMessageArgs name message).

(** The calls a session makes for the lines typed after the name, up to the
    first reserved input. *)
Fixpoint client_calls (name : string) (lines : list string) : list call :=
  match lines with
  | [] => []
  | line :: rest =>
      match client_step name line with
      | Quit => []
      | Send args => Submit args :: client_calls name rest
      end
  end.

Example client_calls_ex :
  client_calls "bob" [" hi "; "Exit"; "exit"; "more"]%string =
  [Submit (mkMessageArgs "bob" "hi"); Submit (mkMessageArgs "bob" "Exit")]%string.
Proof. reflexivity. Qed.

End Client.

(* ===================================================================== *)
(** ** The client's [main]: reading stdin, the chat loop, and its output *)
(* ===================================================================== *)

Module ClientMain.

Import Client.

Definition newline : ascii := ascii_of_nat 10.

(** Successive [reader.ReadString('\n')] calls on the whole of stdin: the
    complete lines (each with its ['\n']), and the bytes after the last
    ['\n'], which the next call returns together with [io.EOF]. *)
Fixpoint reads_acc (cur : list ascii) (l : list ascii) : list (list ascii) * list ascii :=
  match l with
  | [] => ([], cur)
  | c :: l' =>
      if Ascii.eqb c newline then
        let '(ls, tail) := reads_acc [] l' in ((cur ++ [c]) :: ls, tail)
      else reads_acc (cur ++ [c]) l'
  end.

Definition reads (stdin : list ascii) : list (list ascii) := fst (reads_acc [] stdin).

(** How the client process ends: [fmt.Println("Goodbye!")] after [break], or
    [log.Fatal] with its message. *)
Inductive outcome := Goodbye | Fatal (msg : string).

Definition prompt_name : string := "Enter your name: ".
Definition prompt_msg : string := "Enter message (or 'exit' to quit): ".

(** [fmt.Println(x)] writes [x] and a newline. *)
Definition println (x : string) : string := (x ++ byte_str 10)%string.

Definition history_header : string := println (byte_str 10 ++ "--- Chat History ---").
Definition history_footer : string := println ("------------------" ++ byte_str 10).

(** The block printed for one reply: the header, each line, the footer. *)
Definition history_block (lines : list string) : list string :=
  history_header :: map println lines ++ [history_footer].

(** What happens around one [client.Call] of this client.  The server
    serves every connection in its own goroutine ([go server.ServeConn],
    server.go:79), so calls of other sessions can take the lock between two
    calls of this client: [before] are those calls, in lock order.  The call
    itself may fail in transport ([client.Call] returns an error, and the
    client exits with [log.Fatal], client.go:64-67): either the request never
    reaches the handler, or the handler runs and the reply is lost. *)
Inductive fate := Delivered | RequestLost (e : string) | ReplyLost (e : string).

Record turn := mkTurn { before : list call; fate_of : fate }.

(** The turns of this client's calls, in order; once the list is used up,
    no other call intervenes and the calls go through. *)
Definition schedule := list turn.

Definition next_turn (sched : schedule) : turn * schedule :=
  match sched with
  | [] => (mkTurn [] Delivered, [])
  | t :: ts => (t, ts)
  end.

(** The [for] loop of [main]: one iteration per line read, against the
    server state [s] and the schedule of the remaining calls; each write to
    stdout is one element of the output. *)
Fixpoint chat_loop (s : ChatServer) (name : string) (sched : schedule)
  (lines : list (list ascii)) : ChatServer * list string * outcome :=
  match lines with
  | [] => (s, [prompt_msg], Fatal "Error reading message:EOF")
  | line :: rest =>
      let message := TrimSpace (string_of_list_ascii line) in
      if String.eqb message "exit" then (s, [prompt_msg; println "Goodbye!"], Goodbye)
      else
        let '(t, sched') := next_turn sched in
        let s0 := run_calls s (before t) in
        match fate_of t with
        | RequestLost e => (s0, [prompt_msg], Fatal ("RPC error:" ++ e))
        | ReplyLost e =>
            let '(s1, _, _) := SendMessage s0 (mkMessageArgs name message) in
            (s1, [prompt_msg], Fatal ("RPC error:" ++ e))
        | Delivered =>
            let '(s1, reply, err) := SendMessage s0 (mkMessageArgs name message) in
            match err with
            | Some e => (s1, [prompt_msg], Fatal ("RPC error:" ++ e))
            | None =>
                let '(s2, out, o) := chat_loop s1 name sched' rest in
                (s2, prompt_msg :: history_block (reply_lines (hp s1) reply) ++ out, o)
            end
        end
  end.

(** [main] after [rpc.Dial] succeeded: read and trim the name, welcome, loop. *)
Definition client_main (s : ChatServer) (sched : schedule) (stdin : list ascii)
  : ChatServer * list string * outcome :=
  match reads stdin with
  | [] => (s, [prompt_name], Fatal "Error reading name:EOF")
  | first :: rest =>
      let name := TrimSpace (string_of_list_ascii first) in
      let '(s1, out, o) := chat_loop s name sched rest in
      (s1, prompt_name :: ("Welcome, " ++ name ++ "! You can start chatting." ++ byte_str 10)%string
             :: out, o)
  end.

(** The messages a session sends: the trimmed lines after the name line, up
    to the first one that trims to ["exit"]. *)
Fixpoint sent_messages (lines : list (list ascii)) : list string :=
  match lines with
  | [] => []
  | line :: rest =>
      let message := TrimSpace (string_of_list_ascii line) in
      if String.eqb message "exit" then [] else message :: sent_messages rest
  end.

Fixpoint has_exit (lines : list (list ascii)) : bool :=
  match lines with
  | [] => false
  | line :: rest => String.eqb (TrimSpace (string_of_list_ascii line)) "exit" || has_exit rest
  end.

Definition stdin_of (s : string) : list ascii := list_ascii_of_string s.

Example client_main_ex :
  let '(s, out, o) := client_main new_ChatServer []
        (stdin_of (" bob " ++ byte_str 10 ++ "hi" ++ byte_str 10 ++ "exit" ++ byte_str 10)) in
  transcript s = ["bob: hi"]%string /\ o = Goodbye /\
  out = [prompt_name; "Welcome, bob! You can start chatting." ++ byte_str 10;
         prompt_msg; history_header; println "bob: hi"; history_footer;
         prompt_msg; println "Goodbye!"]%string.
Proof. vm_compute. auto. Qed.

(** Another session's message lands between bob's two calls, and bob's
    second call loses its reply after the handler ran. *)
Example client_main_interleaved :
  let '(s, out, o) := client_main new_ChatServer
        [mkTurn [] Delivered; mkTurn [Submit alice_hi] (ReplyLost "connection reset")]
        (stdin_of ("bob" ++ byte_str 10 ++ "hi" ++ byte_str 10 ++ "again" ++ byte_str 10)) in
  transcript s = ["bob: hi"; "alice: hi"; "bob: again"]%string /\
  o = Fatal "RPC error:connection reset" /\
  out = [prompt_name; "Welcome, bob! You can start chatting." ++ byte_str 10;
         prompt_msg; history_header; println "bob: hi"; history_footer;
         prompt_msg]%string.
Proof. vm_compute. auto. Qed.

End ClientMain.

(* ===================================================================== *)
(** ** The claims *)
(* ===================================================================== *)

#[global] Instance MessageArgs_eq_dec : EqDecision MessageArgs.
Proof. solve_decision. Defined.

(** The server after a run of calls from process start. *)
Definition reachable (cs : list call) : ChatServer := run_calls new_ChatServer cs.

Lemma new_ChatServer_ok : server_ok new_ChatServer.
Proof. unfold server_ok, slice_ok. simpl. lia. Qed.

Lemma reachable_ok cs : server_ok (reachable cs).
Proof. apply run_calls_ok, new_ChatServer_ok. Qed.

(** C1: on every state the server can be in, [SendMessage] replies with the
    transcript followed by the one new line [Name + ": " + Message], and the
    transcript afterwards holds exactly the lines of the reply. *)
Theorem SendMessage_reply_is_transcript_plus_line (cs : list call) (args : MessageArgs) :
  let s := reachable cs in
  let '(s', r, _) := SendMessage s args in
  reply_lines (hp s') r = transcript s ++ [(Name args ++ ": " ++ Message args)%string] /\
  last (reply_lines (hp s') r) = Some (Name args ++ ": " ++ Message args)%string /\
  transcript s' = reply_lines (hp s') r.
Proof.
  intros s. pose proof (run_call_spec s (Submit args) (reachable_ok cs)) as H.
  cbn [run_call appended] in H. destruct (SendMessage s args) as [[s' r] e].
  destruct H as (_ & _ & H3 & H4 & _).
  rewrite H4, H3. split; [done|]. split; [|done].
  by rewrite last_app.
Qed.

(** C2: a call only ever appends to the transcript, and along any run of calls
    the earlier transcript is a prefix of the later one, of no greater length. *)
Theorem transcript_append_only (cs : list call) :
  (forall c, transcript (reachable cs) `prefix_of`
               transcript (server_of (run_call (reachable cs) c))) /\
  (forall cs', transcript (reachable cs) `prefix_of` transcript (run_calls (reachable cs) cs') /\
               length (transcript (reachable cs)) <= length (transcript (run_calls (reachable cs) cs'))).
Proof.
  pose proof (reachable_ok cs) as Hok. split.
  - intros c. pose proof (run_call_spec (reachable cs) c Hok) as H.
    destruct (run_call (reachable cs) c) as [[s' r] e].
    destruct H as (_ & _ & H3 & _). simpl. rewrite H3. by eexists.
  - intros cs'. rewrite (run_calls_transcript _ _ Hok). split.
    + by eexists.
    + rewrite length_app. lia.
Qed.

(** C3: whatever order the lock puts [N] submissions in (with any fetches in
    between), the transcript ends with exactly [N] lines, one [Name + ": " +
    Message] per call: the formatted requests up to permutation. *)
Theorem concurrent_submits_all_recorded (reqs : list MessageArgs) (order : list call)
  (Horder : submits order ≡ₚ reqs) :
  length (transcript (reachable order)) = length reqs /\
  transcript (reachable order) ≡ₚ map formatMsg reqs /\
  transcript (reachable order) = map formatMsg (submits order).
Proof.
  pose proof (run_calls_transcript new_ChatServer order new_ChatServer_ok) as H.
  unfold reachable. rewrite H. simpl.
  split; [|split; [|done]].
  - rewrite length_map. by apply Permutation_length.
  - by apply Permutation_map.
Qed.

Lemma concurrent_submits_all_recorded_witness :
  submits [Submit bob_hello; Fetch; Submit alice_hi] ≡ₚ [alice_hi; bob_hello] /\
  transcript (reachable [Submit bob_hello; Fetch; Submit alice_hi]) = ["bob: hello"; "alice: hi"]%string /\
  length (transcript (reachable [Submit bob_hello; Fetch; Submit alice_hi])) = length [alice_hi; bob_hello].
Proof.
  assert (Hp : submits [Submit bob_hello; Fetch; Submit alice_hi] ≡ₚ [alice_hi; bob_hello])
    by (apply (bool_decide_unpack _); vm_compute; exact I).
  split; [exact Hp|].
  destruct (concurrent_submits_all_recorded [alice_hi; bob_hello] _ Hp) as (H1 & _ & H3).
  split; [rewrite H3; reflexivity | exact H1].
Defined.

(** C4: the reply of any call is a fresh array: no later run of calls changes
    what it holds, and a store [reply.History[i] = v] in range, made after any
    run of later calls, leaves the transcript as it was then. *)
Theorem reply_is_defensive_copy (cs : list call) (c : call) :
  let '(s1, r, _) := run_call (reachable cs) c in
  (forall cs', reply_lines (hp (run_calls s1 cs')) r = reply_lines (hp s1) r) /\
  (forall cs' i v, i < length (reply_lines (hp s1) r) ->
     exists h', store (hp (run_calls s1 cs')) (History r) i v = Some h' /\
                transcript (mkChatServer h' (history (run_calls s1 cs'))) =
                transcript (run_calls s1 cs')).
Proof.
  pose proof (run_call_spec (reachable cs) c (reachable_ok cs)) as H.
  destruct (run_call (reachable cs) c) as [[s1 r] e].
  destruct H as (H1 & _ & _ & _ & _ & _ & _ & (l & Hl & Hne & Hlt)).
  assert (Hkeep : forall cs', reply_lines (hp (run_calls s1 cs')) r = reply_lines (hp s1) r).
  { intros cs'. unfold reply_lines. apply contents_frame.
    intros p Hp. rewrite Hl in Hp. injection Hp as <-.
    by apply run_calls_frame. }
  split; [exact Hkeep|].
  intros cs' i v Hi. rewrite <- (Hkeep cs') in Hi.
  destruct (run_calls_apart s1 cs' l H1 Hlt Hne) as [_ Hne'].
  set (s2 := run_calls s1 cs') in *.
  unfold reply_lines, contents, backing in Hi. rewrite Hl in Hi.
  rewrite length_take in Hi.
  unfold store. rewrite Hl. rewrite decide_True by lia.
  destruct (mem (hp s2) !! l) as [a|] eqn:Ea; simpl in Hi; [|lia].
  eexists. split; [reflexivity|].
  unfold transcript. apply contents_frame. intros p Hp; cbn [hp mem].
  rewrite lookup_insert_ne; [done|]. intros ->. by apply Hne'.
Qed.

Lemma reply_is_defensive_copy_witness :
  let '(s1, r, _) := run_call (reachable []) (Submit alice_hi) in
  0 < length (reply_lines (hp s1) r) /\
  exists h', store (hp (run_calls s1 [Submit bob_hello; Fetch])) (History r) 0 "mallory: x"%string = Some h' /\
             transcript (mkChatServer h' (history (run_calls s1 [Submit bob_hello; Fetch]))) =
             transcript (run_calls s1 [Submit bob_hello; Fetch]).
Proof.
  pose proof (reply_is_defensive_copy [] (Submit alice_hi)) as H.
  destruct (run_call (reachable []) (Submit alice_hi)) as [[s1 r] e] eqn:E.
  destruct H as [_ H2].
  assert (Hi : 0 < length (reply_lines (hp s1) r)).
  { vm_compute in E. injection E as <- <- _. vm_compute. lia. }
  split; [exact Hi|]. exact (H2 [Submit bob_hello; Fetch] 0 _ Hi).
Defined.

(** C5: neither handler ever returns a non-nil error, on any state and any
    arguments. *)
Theorem calls_never_fail (s : ChatServer) (c : call) :
  let '(_, _, e) := run_call s c in e = None.
Proof.
  destruct c as [args|]; cbn [run_call].
  - unfold SendMessage. destruct (append (hp s) (history s) (formatMsg args)) as [h1 hist1].
    by destruct (snapshot h1 hist1).
  - unfold GetHistory. by destruct (snapshot (hp s) (history s)).
Qed.

Lemma fetches_keep_history s n :
  history (run_calls s (repeat Fetch n)) = history s.
Proof.
  revert s. induction n as [|n IH]; intros s; [done|].
  cbn [repeat run_calls]. rewrite IH. cbn [run_call].
  unfold GetHistory. by destruct (snapshot (hp s) (history s)).
Qed.

(** C6: any number of [GetHistory] calls leave the transcript, and the
    [history] slice itself, exactly as they were. *)
Theorem fetch_never_mutates (cs : list call) (n : nat) :
  let s := reachable cs in
  transcript (run_calls s (repeat Fetch n)) = transcript s /\
  length (transcript (run_calls s (repeat Fetch n))) = length (transcript s) /\
  history (run_calls s (repeat Fetch n)) = history s.
Proof.
  intros s. rewrite (run_calls_transcript s _ (reachable_ok cs)).
  assert (Hs : submits (repeat Fetch n) = []) by (induction n; simpl; done).
  rewrite Hs; simpl. rewrite app_nil_r.
  split; [done|]. split; [done|]. apply fetches_keep_history.
Qed.

(** C7: two [GetHistory] calls in a row reply with the same lines, in the same
    order; the first reply still holds them after the second call. *)
Theorem fetch_idempotent (cs : list call) :
  let '(s1, r1, _) := GetHistory (reachable cs) in
  let '(s2, r2, _) := GetHistory s1 in
  reply_lines (hp s2) r2 = reply_lines (hp s1) r1 /\
  reply_lines (hp s2) r1 = reply_lines (hp s2) r2.
Proof.
  pose proof (run_call_spec (reachable cs) Fetch (reachable_ok cs)) as H.
  cbn [run_call appended] in H.
  destruct (GetHistory (reachable cs)) as [[s1 r1] e1].
  destruct H as (H1 & _ & H3 & H4 & _ & _ & _ & (l & Hl & Hne & Hlt)).
  pose proof (run_call_spec s1 Fetch H1) as G.
  cbn [run_call appended] in G.
  destruct (GetHistory s1) as [[s2 r2] e2].
  destruct G as (_ & _ & G3 & G4 & _ & G6 & _).
  assert (Hr1 : reply_lines (hp s2) r1 = reply_lines (hp s1) r1).
  { unfold reply_lines. apply contents_frame. intros p Hp.
    rewrite Hl in Hp. injection Hp as <-. by apply G6. }
  rewrite G4, G3, app_nil_r, <- H4. split; [done|]. by rewrite Hr1.
Qed.

(** C8: [SendMessage] validates nothing: on every state and for every name
    and message it succeeds and appends [Name + ": " + Message] verbatim; with
    an empty name and an empty message the reply's last line is [": "]. *)
Theorem empty_submit_accepted (cs : list call) :
  (forall args : MessageArgs,
     let '(s', r, e) := SendMessage (reachable cs) args in
     e = None /\
     reply_lines (hp s') r = transcript (reachable cs) ++ [(Name args ++ ": " ++ Message args)%string]) /\
  (let '(s', r, e) := SendMessage (reachable cs) (mkMessageArgs EmptyString EmptyString) in
   e = None /\ last (reply_lines (hp s') r) = Some ": "%string /\
   reply_lines (hp s') r = transcript (reachable cs) ++ [": "%string]).
Proof.
  assert (Hall : forall args : MessageArgs,
     let '(s', r, e) := SendMessage (reachable cs) args in
     e = None /\
     reply_lines (hp s') r = transcript (reachable cs) ++ [(Name args ++ ": " ++ Message args)%string]).
  { intros args.
    pose proof (run_call_spec (reachable cs) (Submit args) (reachable_ok cs)) as H.
    cbn [run_call appended] in H.
    destruct (SendMessage (reachable cs) args) as [[s' r] e].
    destruct H as (_ & H2 & H3 & H4 & _). split; [done|]. by rewrite H4, H3. }
  split; [exact Hall|].
  specialize (Hall (mkMessageArgs EmptyString EmptyString)).
  destruct (SendMessage (reachable cs) (mkMessageArgs EmptyString EmptyString)) as [[s' r] e].
  destruct Hall as [-> Hr]. rewrite Hr. split; [done|]. split; [|done]. by rewrite last_app.
Qed.

(** C10: on a fresh server, [GetHistory] replies with no lines and a nil error. *)
Theorem fresh_server_fetch_empty :
  let '(s', r, e) := GetHistory new_ChatServer in
  reply_lines (hp s') r = [] /\ length (reply_lines (hp s') r) = 0 /\ e = None.
Proof. vm_compute. auto. Qed.

(* ===================================================================== *)
(** ** Further properties of the code *)
(* ===================================================================== *)

Section Session.

Import Client ClientMain.

(** What a session prints after the welcome line, for a transcript [t] found
    on the server and the messages [msgs] sent: per message, the prompt and
    the whole transcript as it stands after that message; then the last
    prompt, and ["Goodbye!"] when the session ended on ["exit"]. *)
Fixpoint session_output (t : list string) (name : string) (msgs : list string) (quit : bool)
  : list string :=
  match msgs with
  | [] => if quit then [prompt_msg; println "Goodbye!"] else [prompt_msg]
  | m :: ms =>
      let t' := t ++ [formatMsg (mkMessageArgs name m)] in
      prompt_msg :: history_block t' ++ session_output t' name ms quit
  end.

Definition session_outcome (quit : bool) : outcome :=
  if quit then Goodbye else Fatal "Error reading message:EOF".

(** The line [SendMessage] records for a message of [name]. *)
Definition line_of (name m : string) : string := formatMsg (mkMessageArgs name m).

(** The history blocks printed, one per reply, each after its prompt. *)
Definition blocks (ts : list (list string)) : list string :=
  concat (map (fun t => prompt_msg :: history_block t) ts).

(** The last writes of a session: the prompt, and ["Goodbye!"] after
    ["exit"]. *)
Definition closing (o : outcome) : list string :=
  match o with
  | Goodbye => [prompt_msg; println "Goodbye!"]
  | Fatal _ => [prompt_msg]
  end.

Definition rpc_failed (o : outcome) : Prop := exists e, o = Fatal ("RPC error:" ++ e).

(** Every call of the client goes through. *)
Definition reliable (sched : schedule) : Prop := Forall (fun t => fate_of t = Delivered) sched.

(** Every call of the client goes through and no other call lands between
    them. *)
Definition quiet (sched : schedule) : Prop :=
  Forall (fun t => before t = [] /\ fate_of t = Delivered) sched.

Lemma next_turn_reliable sched t sched' :
  next_turn sched = (t, sched') -> reliable sched -> fate_of t = Delivered /\ reliable sched'.
Proof.
  unfold reliable. destruct sched as [|t0 ts]; cbn [next_turn]; intros Ht; injection Ht as <- <-.
  - done.
  - intros H. by inversion H.
Qed.

Lemma next_turn_quiet sched t sched' :
  next_turn sched = (t, sched') -> quiet sched ->
  before t = [] /\ fate_of t = Delivered /\ quiet sched'.
Proof.
  unfold quiet. destruct sched as [|t0 ts]; cbn [next_turn]; intros Ht; injection Ht as <- <-.
  - done.
  - intros H. inversion H as [|? ? [H1 H2] H3]. done.
Qed.

Lemma quiet_reliable sched : quiet sched -> reliable sched.
Proof. intros H. eapply Forall_impl; [exact H|]. cbn. tauto. Qed.

Lemma not_rpc_failed_eof : ~ rpc_failed (Fatal "Error reading message:EOF").
Proof. intros [e He]. injection He. cbn. discriminate. Qed.

Lemma not_rpc_failed_goodbye : ~ rpc_failed Goodbye.
Proof. intros [e He]. discriminate. Qed.

Lemma rpc_failed_rpc e : rpc_failed (Fatal ("RPC error:" ++ e)).
Proof. by exists e. Qed.

(** The loop against any schedule: which of the client's messages reached
    the server ([shown], whose replies were printed, then [lost], at most
    one, whose reply was lost), what the transcript gained ([ext]), the
    histories printed ([ts]), and how the loop ended. *)
Lemma chat_loop_gen s name sched lines :
  server_ok s ->
  let '(s', out, o) := chat_loop s name sched lines in
  exists shown lost ext ts,
    server_ok s' /\
    transcript s' = transcript s ++ ext /\
    (shown ++ lost) `prefix_of` sent_messages lines /\
    map (line_of name) (shown ++ lost) `sublist_of` ext /\
    Forall2 (fun m t => last t = Some (line_of name m)) shown ts /\
    Forall (fun t => transcript s `prefix_of` t /\ t `prefix_of` transcript s') ts /\
    StronglySorted prefix ts /\
    out = blocks ts ++ closing o /\
    (o = Goodbye \/ o = Fatal "Error reading message:EOF" \/ rpc_failed o) /\
    length lost <= 1 /\
    (lost <> [] -> rpc_failed o) /\
    (~ rpc_failed o ->
       lost = [] /\ shown = sent_messages lines /\ o = session_outcome (has_exit lines)) /\
    (reliable sched -> ~ rpc_failed o) /\
    (quiet sched ->
       ext = map (line_of name) shown /\
       out = session_output (transcript s) name (sent_messages lines) (has_exit lines)).
Proof.
  revert s sched. induction lines as [|line rest IH]; intros s sched Hok;
    cbn [chat_loop sent_messages has_exit].
  - exists [], [], [], []. rewrite app_nil_r.
    pose proof not_rpc_failed_eof as Hn.
    split; [done|]. split; [done|]. split; [apply prefix_nil|]. split; [constructor|].
    split; [constructor|]. split; [constructor|]. split; [constructor|]. split; [done|].
    split; [right; left; done|]. split; [cbn; lia|]. split; [done|].
    split; [done|]. split; [done|]. done.
  - destruct (String.eqb (TrimSpace (string_of_list_ascii line)) "exit") eqn:E; cbn [orb].
    { exists [], [], [], []. rewrite app_nil_r.
      pose proof not_rpc_failed_goodbye as Hn.
      split; [done|]. split; [done|]. split; [apply prefix_nil|]. split; [constructor|].
      split; [constructor|]. split; [constructor|]. split; [constructor|]. split; [done|].
      split; [left; done|]. split; [cbn; lia|]. split; [done|].
      split; [done|]. split; [done|]. done. }
    set (m := TrimSpace (string_of_list_ascii line)).
    destruct (next_turn sched) as [[bs f] sched'] eqn:Ht. cbn [before fate_of].
    pose proof (run_calls_ok s bs Hok) as Hok0.
    pose proof (run_calls_transcript s bs Hok) as Ht0.
    set (s0 := run_calls s bs) in *.
    pose proof (run_call_spec s0 (Submit (mkMessageArgs name m)) Hok0) as H.
    cbn [run_call appended] in H.
    destruct f as [|e|e].
    + destruct (SendMessage s0 (mkMessageArgs name m)) as [[s1 r] err].
      destruct H as (H1 & -> & H3 & H4 & _).
      specialize (IH s1 sched' H1).
      destruct (chat_loop s1 name sched' rest) as [[s2 out] o].
      destruct IH as (shown & lost & ext & ts & I1 & I2 & I3 & I4 & I5 & I6 & I7 & I8 & I9
                      & I10 & I11 & I12 & I13 & I14).
      exists (m :: shown), lost, (map formatMsg (submits bs) ++ line_of name m :: ext),
        (transcript s1 :: ts).
      assert (Hs1 : transcript s1 = transcript s ++ map formatMsg (submits bs) ++ [line_of name m]).
      { rewrite H3, Ht0, <- app_assoc. reflexivity. }
      assert (Hs2 : transcript s2 = transcript s1 ++ ext) by exact I2.
      split; [done|]. split.
      { rewrite Hs2, Hs1, <- !app_assoc. reflexivity. }
      split; [by apply prefix_cons|]. split.
      { cbn [app map]. apply sublist_inserts_l. by apply sublist_skip. }
      split; [constructor; [rewrite Hs1, !app_assoc; apply last_snoc|done]|].
      split.
      { constructor.
        - split; [rewrite Hs1; by apply prefix_app_r|rewrite Hs2; by apply prefix_app_r].
        - eapply Forall_impl; [exact I6|]. intros t [Ht1 Ht2]. split; [|done].
          etrans; [|exact Ht1]. rewrite Hs1. by apply prefix_app_r. }
      split.
      { constructor; [done|]. eapply Forall_impl; [exact I6|]. by intros t [? ?]. }
      split.
      { rewrite I8, H4. cbn [blocks map concat]. unfold blocks. rewrite app_comm_cons, app_assoc.
        reflexivity. }
      split; [done|]. split; [done|]. split; [done|]. split.
      { intros Hn. destruct (I12 Hn) as (-> & -> & ->). done. }
      split.
      { intros Hr. destruct (next_turn_reliable _ _ _ Ht Hr) as [_ Hr']. by apply I13. }
      intros Hq. destruct (next_turn_quiet _ _ _ Ht Hq) as (Hb & _ & Hq').
      cbn [before] in Hb. subst bs.
      destruct (I14 Hq') as [-> ->]. split; [done|].
      destruct (I12 (I13 (quiet_reliable _ Hq'))) as (_ & -> & _).
      cbn [session_output]. rewrite H4, H3. reflexivity.
    + exists [], [], (map formatMsg (submits bs)), [].
      assert (Hf : ~ reliable sched).
      { intros Hr. by destruct (next_turn_reliable _ _ _ Ht Hr) as [Hd _]. }
      split; [done|]. split; [done|]. split; [apply prefix_nil|]. split; [apply sublist_nil_l|].
      split; [constructor|]. split; [constructor|]. split; [constructor|].
      split; [done|]. split; [right; right; apply rpc_failed_rpc|].
      split; [cbn; lia|]. split; [intros; apply rpc_failed_rpc|].
      split; [intros Hn; by destruct Hn; apply rpc_failed_rpc|].
      split; [done|]. intros Hq. by destruct (Hf (quiet_reliable _ Hq)).
    + destruct (SendMessage s0 (mkMessageArgs name m)) as [[s1 r] err].
      destruct H as (H1 & _ & H3 & _ & _).
      exists [], [m], (map formatMsg (submits bs) ++ [line_of name m]), [].
      assert (Hf : ~ reliable sched).
      { intros Hr. by destruct (next_turn_reliable _ _ _ Ht Hr) as [Hd _]. }
      split; [done|]. split; [rewrite H3, Ht0, <- app_assoc; reflexivity|].
      split; [apply prefix_cons, prefix_nil|].
      split; [apply sublist_inserts_l; done|].
      split; [constructor|]. split; [constructor|]. split; [constructor|].
      split; [done|]. split; [right; right; apply rpc_failed_rpc|].
      split; [cbn; lia|]. split; [intros; apply rpc_failed_rpc|].
      split; [intros Hn; by destruct Hn; apply rpc_failed_rpc|].
      split; [done|]. intros Hq. by destruct (Hf (quiet_reliable _ Hq)).
Qed.

Lemma reads_acc_no_newline cur p :
  Forall (fun c => c <> newline) p -> fst (reads_acc cur p) = [].
Proof.
  revert cur. induction p as [|c p IH]; intros cur Hp; [done|].
  inversion Hp as [|? ? Hc Hp']; subst. cbn [reads_acc].
  destruct (Ascii.eqb c newline) eqn:E.
  - apply Ascii.eqb_eq in E. contradiction.
  - by apply IH.
Qed.

Lemma reads_acc_app cur l p :
  Forall (fun c => c <> newline) p -> fst (reads_acc cur (l ++ p)) = fst (reads_acc cur l).
Proof.
  revert cur. induction l as [|c l IH]; intros cur Hp; cbn [app reads_acc].
  - by apply reads_acc_no_newline.
  - destruct (Ascii.eqb c newline).
    + specialize (IH [] Hp). destruct (reads_acc [] (l ++ p)) as [ls1 t1].
      destruct (reads_acc [] l) as [ls2 t2]. simpl in *. by subst.
    + by apply IH.
Qed.

End Session.

Section SessionTheorems.

Import Client ClientMain.

Definition welcome (name : string) : string :=
  ("Welcome, " ++ name ++ "! You can start chatting." ++ byte_str 10)%string.

Lemma client_main_gen s sched stdin :
  server_ok s ->
  let '(s', out, o) := client_main s sched stdin in
  match reads stdin with
  | [] => s' = s /\ out = [prompt_name] /\ o = Fatal "Error reading name:EOF"
  | first :: rest =>
      let name := TrimSpace (string_of_list_ascii first) in
      exists shown lost ext ts,
        transcript s' = transcript s ++ ext /\
        (shown ++ lost) `prefix_of` sent_messages rest /\
        map (line_of name) (shown ++ lost) `sublist_of` ext /\
        Forall2 (fun m t => last t = Some (line_of name m)) shown ts /\
        Forall (fun t => transcript s `prefix_of` t /\ t `prefix_of` transcript s') ts /\
        StronglySorted prefix ts /\
        out = prompt_name :: welcome name :: blocks ts ++ closing o /\
        (o = Goodbye \/ o = Fatal "Error reading message:EOF" \/ rpc_failed o) /\
        (~ rpc_failed o ->
           lost = [] /\ shown = sent_messages rest /\ o = session_outcome (has_exit rest)) /\
        (reliable sched -> ~ rpc_failed o) /\
        (quiet sched ->
           ext = map (line_of name) shown /\
           out = prompt_name :: welcome name ::
                   session_output (transcript s) name (sent_messages rest) (has_exit rest))
  end.
Proof.
  intros Hok. unfold client_main.
  destruct (reads stdin) as [|first rest]; [done|].
  pose proof (chat_loop_gen s (TrimSpace (string_of_list_ascii first)) sched rest Hok) as H.
  destruct (chat_loop s (TrimSpace (string_of_list_ascii first)) sched rest) as [[s' out] o].
  destruct H as (shown & lost & ext & ts & _ & H2 & H3 & H4 & H5 & H6 & H7 & H8 & H9
                 & _ & _ & H12 & H13 & H14).
  exists shown, lost, ext, ts.
  split; [done|]. split; [done|]. split; [done|]. split; [done|]. split; [done|].
  split; [done|]. split; [by rewrite H8|]. split; [done|]. split; [done|].
  split; [done|]. intros Hq. destruct (H14 Hq) as [-> ->]. done.
Qed.


(** What a session prints: the name prompt and the welcome line with the
    trimmed name; then, for each of its messages whose reply arrived, in
    order, the prompt and a history block listing the whole transcript as
    the server held it right after that message (it extends the transcript
    found at the start, ends with the session's own line, extends the block
    printed before it, and is a prefix of the final transcript); then the
    last prompt, and ["Goodbye!"] when the session ended on ["exit"].  With
    no failed call every message gets its block; with no other call in
    between each block is the previous one plus the session's own line. *)
Theorem client_session_output (cs : list call) (sched : schedule) (stdin : list ascii) :
  let s := reachable cs in
  let '(s', out, o) := client_main s sched stdin in
  match reads stdin with
  | [] => out = [prompt_name]
  | first :: rest =>
      let name := TrimSpace (string_of_list_ascii first) in
      exists shown ts,
        shown `prefix_of` sent_messages rest /\
        out = prompt_name :: welcome name :: blocks ts ++ closing o /\
        Forall2 (fun m t => last t = Some (line_of name m)) shown ts /\
        Forall (fun t => transcript s `prefix_of` t /\ t `prefix_of` transcript s') ts /\
        StronglySorted prefix ts /\
        (reliable sched -> shown = sent_messages rest) /\
        (quiet sched ->
           out = prompt_name :: welcome name ::
                   session_output (transcript s) name (sent_messages rest) (has_exit rest))
  end.
Proof.
  intros s. pose proof (client_main_gen s sched stdin (reachable_ok cs)) as H.
  destruct (client_main s sched stdin) as [[s' out] o].
  destruct (reads stdin) as [|first rest].
  - by destruct H as (_ & -> & _).
  - destruct H as (shown & lost & ext & ts & _ & H2 & _ & H4 & H5 & H6 & H7 & _ & H9 & H10 & H11).
    exists shown, ts.
    split; [by eapply prefix_app_l|]. split; [done|]. split; [done|]. split; [done|].
    split; [done|]. split.
    + intros Hr. by destruct (H9 (H10 Hr)) as (_ & -> & _).
    + intros Hq. by destruct (H11 Hq) as [_ ->].
Qed.

(** How a session ends: with ["Goodbye!"], with [log.Fatal] on end of input
    (on the name when stdin holds no complete line), or with [log.Fatal] on a
    failed call.  Unless a call failed, it ends with ["Goodbye!"] exactly when
    a line after the name line trims to ["exit"]; with no failed call this is
    always so. *)
Theorem client_session_outcome (cs : list call) (sched : schedule) (stdin : list ascii) :
  let '(_, _, o) := client_main (reachable cs) sched stdin in
  match reads stdin with
  | [] => o = Fatal "Error reading name:EOF"
  | _ :: rest =>
      (o = Goodbye \/ o = Fatal "Error reading message:EOF" \/
       exists e, o = Fatal ("RPC error:" ++ e)) /\
      ((forall e, o <> Fatal ("RPC error:" ++ e)) ->
         o = if has_exit rest then Goodbye else Fatal "Error reading message:EOF") /\
      (reliable sched -> o = if has_exit rest then Goodbye else Fatal "Error reading message:EOF")
  end.
Proof.
  pose proof (client_main_gen (reachable cs) sched stdin (reachable_ok cs)) as H.
  destruct (client_main (reachable cs) sched stdin) as [[s' out] o].
  destruct (reads stdin) as [|first rest]; [by destruct H as (_ & _ & H)|].
  destruct H as (shown & lost & ext & ts & _ & _ & _ & _ & _ & _ & _ & H8 & H9 & H10 & _).
  split; [done|]. split.
  - intros Hn. destruct (H9 (fun '(ex_intro _ e He) => Hn e He)) as (_ & _ & ->). done.
  - intros Hr. by destruct (H9 (H10 Hr)) as (_ & _ & ->).
Qed.

(** Bytes after the last newline of stdin change nothing: [ReadString]
    returns them with [io.EOF], so a last line without its newline is never
    sent (and is never taken as ["exit"]). *)
Theorem client_ignores_unterminated_tail (s : ChatServer) (sched : schedule) (stdin p : list ascii)
  (Hp : Forall (fun c => c <> newline) p) :
  client_main s sched (stdin ++ p) = client_main s sched stdin.
Proof.
  unfold client_main, reads. by rewrite reads_acc_app.
Qed.

Lemma client_ignores_unterminated_tail_witness :
  Forall (fun c => c <> newline) (stdin_of "exit") /\
  client_main new_ChatServer [] (stdin_of ("bob" ++ byte_str 10 ++ "hi" ++ byte_str 10) ++ stdin_of "exit")
  = client_main new_ChatServer [] (stdin_of ("bob" ++ byte_str 10 ++ "hi" ++ byte_str 10)).
Proof.
  assert (Hp : Forall (fun c => c <> newline) (stdin_of "exit")).
  { repeat constructor; vm_compute; discriminate. }
  split; [exact Hp|]. apply client_ignores_unterminated_tail, Hp.
Defined.

End SessionTheorems.

(* ===================================================================== *)
(** ** [strings.TrimSpace] *)
(* ===================================================================== *)

Section Trim.

Import Client.

Variable runes : list (list ascii).
Hypothesis runes_nonempty : Forall (fun r => r <> []) runes.

(** [l] does not start with any of [runes]. *)
Definition no_lead (l : list ascii) : Prop := forall r, In r runes -> ~ r `prefix_of` l.

(** [p] is a run of [runes]. *)
Definition rune_run (p : list ascii) : Prop :=
  exists rs, Forall (fun r => In r runes) rs /\ p = concat rs.

Lemma is_prefix_spec r l : is_prefix r l = true <-> r `prefix_of` l.
Proof.
  revert l. induction r as [|a r IH]; intros l; cbn [is_prefix].
  - split; [intros _; apply prefix_nil|done].
  - destruct l as [|b l].
    + split; [discriminate|]. intros [k Hk]. discriminate.
    + rewrite andb_true_iff, Ascii.eqb_eq, IH. split.
      * intros [-> Hp]. by apply prefix_cons.
      * intros Hp. apply prefix_cons_inv_1 in Hp as Hab. subst b.
        split; [done|]. by apply prefix_cons_inv_2 in Hp.
Qed.

Lemma leading_space_some l k :
  leading_space runes l = Some k -> exists r, In r runes /\ r `prefix_of` l /\ length r = k.
Proof.
  unfold leading_space. destruct (List.find _ runes) as [r|] eqn:E; [|discriminate].
  intros [= <-]. apply List.find_some in E as [Hin Hp].
  exists r. split; [done|]. split; [by apply is_prefix_spec|done].
Qed.

Lemma leading_space_none l : leading_space runes l = None -> no_lead l.
Proof.
  unfold leading_space. destruct (List.find _ runes) as [r|] eqn:E; [discriminate|].
  intros _ r Hin Hp. pose proof (List.find_none _ _ E r Hin) as Hf.
  apply is_prefix_spec in Hp. congruence.
Qed.

Lemma rune_nonempty r : In r runes -> r <> [].
Proof. intros Hin. rewrite List.Forall_forall in runes_nonempty. by apply runes_nonempty. Qed.

Lemma no_lead_nil : no_lead [].
Proof.
  intros r Hin Hp. apply (rune_nonempty r Hin).
  destruct Hp as [k Hk]. by destruct r.
Qed.

(** The left trim leaves no leading rune when it has fuel for every byte. *)
Lemma trim_left_fuel_no_lead fuel l :
  length l <= fuel -> no_lead (trim_left_fuel runes fuel l).
Proof.
  revert l. induction fuel as [|fuel IH]; intros l Hl; cbn [trim_left_fuel].
  - destruct l; [apply no_lead_nil|simpl in Hl; lia].
  - destruct (leading_space runes l) as [[|k]|] eqn:E.
    + apply leading_space_some in E as (r & Hin & _ & Hr).
      destruct r; [by destruct (rune_nonempty [] Hin)|discriminate].
    + apply IH. rewrite length_drop. lia.
    + by apply leading_space_none.
Qed.

Lemma trim_left_fuel_fixed fuel l : no_lead l -> trim_left_fuel runes fuel l = l.
Proof.
  intros Hl. destruct fuel as [|fuel]; cbn [trim_left_fuel]; [done|].
  destruct (leading_space runes l) as [[|k]|] eqn:E; try done.
  apply leading_space_some in E as (r & Hin & Hp & _). by destruct (Hl r Hin).
Qed.

(** What the left trim removes is a run of runes. *)
Lemma trim_left_fuel_split fuel l :
  exists p, rune_run p /\ l = p ++ trim_left_fuel runes fuel l.
Proof.
  revert l. induction fuel as [|fuel IH]; intros l; cbn [trim_left_fuel].
  - exists []. split; [exists []; done|done].
  - destruct (leading_space runes l) as [[|k]|] eqn:E;
      try (exists []; split; [exists []; done|done]).
    apply leading_space_some in E as (r & Hin & [l' Hl'] & Hr).
    destruct (IH (drop (S k) l)) as (p & (rs & Hrs & ->) & Hp).
    exists (r ++ concat rs). split.
    + exists (r :: rs). split; [by constructor|done].
    + rewrite <- app_assoc, <- Hp. subst l. rewrite <- Hr, drop_app_length. done.
Qed.

Lemma no_lead_prefix p l : no_lead l -> p `prefix_of` l -> no_lead p.
Proof. intros Hl Hp r Hin Hr. apply (Hl r Hin). by transitivity p. Qed.

End Trim.

Section TrimSpaceTheorems.

Import Client.

Lemma space_runes_nonempty : Forall (fun r => r <> []) space_runes.
Proof. vm_compute. repeat constructor; discriminate. Qed.

Lemma space_runes_rev_nonempty : Forall (fun r => r <> []) (map (@rev ascii) space_runes).
Proof. vm_compute. repeat constructor; discriminate. Qed.

Lemma suffix_rev_prefix (r X : list ascii) : r `suffix_of` rev X -> rev r `prefix_of` X.
Proof.
  intros [k Hk]. exists (rev k).
  rewrite <- (rev_involutive X), Hk, rev_app_distr. done.
Qed.

Lemma rune_run_rev (p : list ascii) :
  rune_run (map (@rev ascii) space_runes) p -> rune_run space_runes (rev p).
Proof.
  intros (rs & Hrs & ->). exists (rev (map (@rev ascii) rs)). split.
  - apply List.Forall_rev. apply List.Forall_map.
    eapply List.Forall_impl; [|exact Hrs]. intros r Hr.
    apply in_map_iff in Hr as (r' & <- & Hr'). by rewrite rev_involutive.
  - clear Hrs. induction rs as [|r rs IH]; [done|].
    cbn [concat map rev]. rewrite rev_app_distr, IH, concat_app. simpl.
    by rewrite app_nil_r.
Qed.

(** The right trim: what it keeps, what it removes, and that what it keeps
    ends with no space rune. *)
Lemma trim_right_split (A : list ascii) :
  exists Y q, trim_right A = rev Y /\ A = rev Y ++ rev q /\
    rune_run (map (@rev ascii) space_runes) q /\
    no_lead (map (@rev ascii) space_runes) Y.
Proof.
  unfold trim_right.
  set (Y := trim_left_fuel (map (@rev ascii) space_runes) (length A) (rev A)).
  destruct (trim_left_fuel_split (map (@rev ascii) space_runes) (length A) (rev A))
    as (q & Hq & Hsplit).
  exists Y, q. split; [done|]. split.
  - rewrite <- rev_app_distr. fold Y in Hsplit. rewrite <- Hsplit. by rewrite rev_involutive.
  - split; [done|]. apply trim_left_fuel_no_lead; [apply space_runes_rev_nonempty|].
    rewrite length_rev. lia.
Qed.

(** [strings.TrimSpace] removes from the front and from the back of the
    string runs of white-space runes (ASCII [\t \n \v \f \r ' '] and the
    UTF-8 encodings of Unicode white space), nothing in between, and what it
    returns neither starts nor ends with such a rune. *)
Theorem TrimSpace_spec (s : string) :
  let l := list_ascii_of_string s in
  let t := list_ascii_of_string (TrimSpace s) in
  exists pre suf,
    l = pre ++ t ++ suf /\ rune_run space_runes pre /\ rune_run space_runes suf /\
    (forall r, In r space_runes -> ~ r `prefix_of` t /\ ~ r `suffix_of` t).
Proof.
  intros l t. unfold t, TrimSpace. rewrite list_ascii_of_string_of_list_ascii.
  change (list_ascii_of_string s) with l.
  destruct (trim_left_fuel_split space_runes (length l) l) as (pre & Hpre & Hl).
  fold (trim_left l) in Hl.
  assert (HA : no_lead space_runes (trim_left l)).
  { apply trim_left_fuel_no_lead; [apply space_runes_nonempty|lia]. }
  destruct (trim_right_split (trim_left l)) as (Y & q & HB & HA' & Hq & HY).
  rewrite HB. exists pre, (rev q). split; [|split; [done|split]].
  - rewrite Hl at 1. by rewrite HA'.
  - by apply rune_run_rev.
  - intros r Hin. split.
    + apply (no_lead_prefix space_runes (rev Y) (trim_left l)); [done| |done].
      rewrite HA'. by exists (rev q).
    + intros Hs. apply suffix_rev_prefix in Hs.
      apply (HY (rev r)); [by apply in_map|done].
Qed.

(** [strings.TrimSpace] is idempotent. *)
Theorem TrimSpace_idempotent (s : string) : TrimSpace (TrimSpace s) = TrimSpace s.
Proof.
  unfold TrimSpace. set (l := list_ascii_of_string s).
  change (list_ascii_of_string s) with l.
  assert (HA : no_lead space_runes (trim_left l)).
  { apply trim_left_fuel_no_lead; [apply space_runes_nonempty|lia]. }
  destruct (trim_right_split (trim_left l)) as (Y & q & HB & HA' & _ & HY).
  rewrite list_ascii_of_string_of_list_ascii, HB. f_equal.
  assert (Hl : trim_left (rev Y) = rev Y).
  { apply trim_left_fuel_fixed.
    apply (no_lead_prefix space_runes (rev Y) (trim_left l)); [done|].
    rewrite HA'. by exists (rev q). }
  rewrite Hl. unfold trim_right. rewrite rev_involutive.
  by rewrite trim_left_fuel_fixed.
Qed.

End TrimSpaceTheorems.

Section TrimNewline.

Import Client ClientMain.

Lemma find_ext_in {A} (f g : A -> bool) (l : list A) :
  (forall x, In x l -> f x = g x) -> List.find f l = List.find g l.
Proof.
  induction l as [|a l IH]; intros H; [done|]. cbn [List.find].
  rewrite (H a (or_introl eq_refl)). destruct (g a); [done|].
  apply IH. intros x Hx. apply H. by right.
Qed.

Lemma is_prefix_snoc_no_nl r l :
  Forall (fun c => c <> newline) r -> is_prefix r (l ++ [newline]) = is_prefix r l.
Proof.
  revert l. induction r as [|c r IH]; intros l Hr; [done|].
  inversion Hr as [|? ? Hc Hr']; subst.
  destruct l as [|b l]; cbn [app is_prefix].
  - destruct (Ascii.eqb c newline) eqn:E; [|done]. apply Ascii.eqb_eq in E. contradiction.
  - by rewrite IH.
Qed.

Lemma space_runes_nl_free r :
  In r space_runes -> r = [newline] \/ Forall (fun c => c <> newline) r.
Proof.
  intros Hin.
  assert (Hb : forallb (fun r => bool_decide (r = [newline]) ||
                                 forallb (fun c => negb (Ascii.eqb c newline)) r) space_runes = true)
    by (vm_compute; reflexivity).
  rewrite forallb_forall in Hb. specialize (Hb r Hin).
  apply orb_true_iff in Hb as [Hb|Hb]; [left; by apply bool_decide_eq_true in Hb|right].
  rewrite forallb_forall in Hb. apply List.Forall_forall. intros c Hc Heq.
  specialize (Hb c Hc). subst c. by rewrite Ascii.eqb_refl in Hb.
Qed.

(** A trailing newline does not change which space rune a non-empty list
    starts with: the only rune holding a newline byte is the newline. *)
Lemma leading_space_snoc l :
  l <> [] -> leading_space space_runes (l ++ [newline]) = leading_space space_runes l.
Proof.
  intros Hl. unfold leading_space. rewrite (find_ext_in _ (fun r => is_prefix r l)); [done|].
  intros r Hin. destruct (space_runes_nl_free r Hin) as [->|Hr].
  - destruct l; [done|]. reflexivity.
  - by apply is_prefix_snoc_no_nl.
Qed.

Lemma trim_left_fuel_nil runes f : Forall (fun r => r <> []) runes -> trim_left_fuel runes f [] = [].
Proof. intros Hne. apply trim_left_fuel_fixed, no_lead_nil, Hne. Qed.

Lemma trim_left_fuel_S f l :
  length l <= f -> trim_left_fuel space_runes (S f) l = trim_left_fuel space_runes f l.
Proof.
  revert l. induction f as [|f IH]; intros l Hl.
  - destruct l; [|simpl in Hl; lia].
    rewrite !trim_left_fuel_nil; [done|apply space_runes_nonempty..].
  - cbn [trim_left_fuel]. destruct (leading_space space_runes l) as [[|k]|]; try done.
    apply IH. rewrite length_drop. lia.
Qed.

Lemma trim_left_fuel_snoc f l :
  trim_left_fuel space_runes f l <> [] ->
  trim_left_fuel space_runes f (l ++ [newline]) = trim_left_fuel space_runes f l ++ [newline].
Proof.
  revert l. induction f as [|f IH]; intros l Hl; [done|].
  destruct l as [|a l0] eqn:El.
  { by rewrite trim_left_fuel_nil in Hl; [|apply space_runes_nonempty]. }
  rewrite <- El in *. cbn [trim_left_fuel] in *.
  rewrite leading_space_snoc by (subst; discriminate).
  destruct (leading_space space_runes l) as [[|k]|] eqn:E; try done.
  apply leading_space_some in E as (r & _ & [l' Hl'] & Hr).
  rewrite drop_app_le; [by apply IH|]. rewrite Hl', length_app. lia.
Qed.

Lemma trim_left_fuel_snoc_empty f l :
  length l <= f -> trim_left_fuel space_runes f l = [] ->
  trim_left_fuel space_runes (S f) (l ++ [newline]) = [] \/
  trim_left_fuel space_runes (S f) (l ++ [newline]) = [newline].
Proof.
  revert l. induction f as [|f IH]; intros l Hlen Hl.
  - destruct l; [|simpl in Hlen; lia]. left. reflexivity.
  - destruct l as [|a l0] eqn:El.
    + left. cbn [app]. cbn [trim_left_fuel].
      change (leading_space space_runes [newline]) with (Some 1). cbn [drop].
      exact (trim_left_fuel_nil space_runes (S f) space_runes_nonempty).
    + rewrite <- El in *. cbn [trim_left_fuel] in Hl |- *.
      rewrite leading_space_snoc by (subst; discriminate).
      destruct (leading_space space_runes l) as [[|k]|] eqn:E; try (subst; discriminate).
      pose proof E as E'. apply leading_space_some in E' as (r & _ & [l' Hl'] & Hr).
      rewrite drop_app_le by (rewrite Hl', length_app; lia).
      apply IH; [rewrite length_drop; lia|done].
Qed.

Lemma trim_right_snoc X : trim_right (X ++ [newline]) = trim_right X.
Proof.
  unfold trim_right. rewrite length_app, rev_app_distr. cbn [length rev app].
  replace (length X + 1) with (S (length X)) by lia.
  cbn [trim_left_fuel].
  change (leading_space (map (@rev ascii) space_runes) (newline :: rev X)) with (Some 1).
  done.
Qed.

Lemma list_ascii_of_string_append (a b : string) :
  list_ascii_of_string (a ++ b) = list_ascii_of_string a ++ list_ascii_of_string b.
Proof. induction a as [|c a IH]; [done|]. simpl. by rewrite IH. Qed.

(** [strings.TrimSpace] removes the newline [ReadString] leaves on a line:
    the line [t ++ "\n"] trims to what the typed text [t] trims to. *)
Lemma TrimSpace_newline (t : string) : TrimSpace (t ++ byte_str 10) = TrimSpace t.
Proof.
  unfold TrimSpace. rewrite list_ascii_of_string_append.
  change (list_ascii_of_string (byte_str 10)) with [newline].
  set (L := list_ascii_of_string t). f_equal.
  unfold trim_left at 1. rewrite length_app. cbn [length].
  replace (length L + 1) with (S (length L)) by lia.
  destruct (decide (trim_left L = [])) as [H0|H0].
  - rewrite H0. unfold trim_left in H0.
    destruct (trim_left_fuel_snoc_empty (length L) L ltac:(lia) H0) as [-> | ->]; reflexivity.
  - rewrite trim_left_fuel_snoc.
    + rewrite trim_left_fuel_S by lia. fold (trim_left L). apply trim_right_snoc.
    + rewrite trim_left_fuel_S by lia. exact H0.
Qed.

Lemma space_runes_prefix_free r1 r2 :
  In r1 space_runes -> In r2 space_runes -> r1 `prefix_of` r2 -> r1 = r2.
Proof.
  intros H1 H2 Hp.
  assert (Hb : forallb (fun a => forallb (fun b => negb (is_prefix a b) || bool_decide (a = b)) space_runes) space_runes = true)
    by (vm_compute; reflexivity).
  rewrite forallb_forall in Hb. specialize (Hb r1 H1).
  rewrite forallb_forall in Hb. specialize (Hb r2 H2).
  apply is_prefix_spec in Hp. rewrite Hp in Hb. simpl in Hb.
  by apply bool_decide_eq_true in Hb.
Qed.

(** A run of white-space runes trims to nothing. *)
Lemma trim_left_fuel_run rs f :
  Forall (fun r => In r space_runes) rs -> length (concat rs) <= f -> trim_left_fuel space_runes f (concat rs) = [].
Proof.
  revert f. induction rs as [|r rs IH]; intros f Hrs Hf.
  - apply trim_left_fuel_nil, space_runes_nonempty.
  - inversion Hrs as [|? ? Hr Hrs']; subst.
    pose proof (rune_nonempty space_runes space_runes_nonempty r Hr) as Hne.
    destruct f as [|f]; [destruct r; [done|simpl in Hf; lia]|].
    cbn [concat] in *. cbn [trim_left_fuel].
    destruct (leading_space space_runes (r ++ concat rs)) as [k|] eqn:E.
    + apply leading_space_some in E as (r' & Hr' & Hp' & <-).
      assert (Hpr : r `prefix_of` r ++ concat rs) by (by exists (concat rs)).
      assert (r' = r) as ->.
      { destruct (prefix_weak_total r' r _ Hp' Hpr) as [H|H].
        - by apply space_runes_prefix_free.
        - symmetry. by apply space_runes_prefix_free. }
      destruct r as [|a r0]; [done|]. cbn [length].
      rewrite (drop_app_length' (a :: r0) (concat rs) (S (length r0))) by done.
      apply IH; [done|]. rewrite length_app in Hf. simpl in Hf. lia.
    + apply leading_space_none in E. exfalso. apply (E r Hr). by exists (concat rs).
Qed.

Lemma TrimSpace_run (t : string) :
  rune_run space_runes (list_ascii_of_string t) -> TrimSpace t = EmptyString.
Proof.
  intros (rs & Hrs & Ht). unfold TrimSpace, trim_left.
  rewrite Ht, trim_left_fuel_run; [reflexivity|done|lia].
Qed.

End TrimNewline.

(* ===================================================================== *)
(** ** Runs of server calls *)
(* ===================================================================== *)

Section RunTheorems.

Definition reply_of (res : ChatServer * HistoryReply * error) : HistoryReply :=
  let '(_, r, _) := res in r.

Lemma run_call_reply_lines s c :
  server_ok s ->
  reply_lines (hp (server_of (run_call s c))) (reply_of (run_call s c)) = transcript s ++ appended c.
Proof.
  intros Hok. pose proof (run_call_spec s c Hok) as H.
  destruct (run_call s c) as [[s' r] e]. destruct H as (_ & _ & H3 & H4 & _).
  simpl. by rewrite H4, H3.
Qed.

(** Snapshot isolation: the reply to a call made after the calls [cs1] lists
    the formatted messages of every submission up to and including this call,
    in lock order, and keeps listing exactly these lines after any further
    calls [cs2], as a prefix of the transcript then. *)
Theorem reply_is_prefix_of_later_transcript (cs1 : list call) (c : call) (cs2 : list call) :
  let '(s1, r, _) := run_call (reachable cs1) c in
  reply_lines (hp (run_calls s1 cs2)) r = map formatMsg (submits (cs1 ++ [c])) /\
  reply_lines (hp (run_calls s1 cs2)) r `prefix_of` transcript (run_calls s1 cs2).
Proof.
  pose proof (reachable_ok cs1) as Hok.
  pose proof (run_call_reply_lines (reachable cs1) c Hok) as HR.
  pose proof (run_call_spec (reachable cs1) c Hok) as H.
  destruct (run_call (reachable cs1) c) as [[s1 r] e]. simpl in HR.
  destruct H as (H1 & _ & H3 & _ & _ & _ & _ & (l & Hl & Hne & Hlt)).
  assert (Hkeep : reply_lines (hp (run_calls s1 cs2)) r = reply_lines (hp s1) r).
  { unfold reply_lines. apply contents_frame. intros p Hp.
    rewrite Hl in Hp. injection Hp as <-. by apply run_calls_frame. }
  assert (Hsub : map formatMsg (submits (cs1 ++ [c])) = transcript s1).
  { rewrite H3. unfold reachable. rewrite (run_calls_transcript _ _ new_ChatServer_ok).
    assert (Hs : forall cs d, submits (cs ++ [d]) = submits cs ++ submits [d]).
    { intros cs d. induction cs as [|[a|] cs IHc]; simpl; try done. by rewrite IHc. }
    rewrite Hs, map_app. destruct c; done. }
  rewrite Hkeep, HR, <- H3, Hsub. split; [done|].
  rewrite (run_calls_transcript _ _ H1). by eexists.
Qed.

(** [GetHistory] calls are invisible to every other call: with all of them
    removed from a run, any call made afterwards replies with the same lines
    and leaves the same transcript. *)
Theorem fetches_invisible (cs : list call) (c : call) :
  let cs' := map Submit (submits cs) in
  reply_lines (hp (server_of (run_call (reachable cs) c))) (reply_of (run_call (reachable cs) c)) =
  reply_lines (hp (server_of (run_call (reachable cs') c))) (reply_of (run_call (reachable cs') c)) /\
  transcript (reachable (cs ++ [c])) = transcript (reachable (cs' ++ [c])).
Proof.
  intros cs'.
  assert (Hs : submits cs' = submits cs).
  { unfold cs'. induction (submits cs) as [|a l IH]; simpl; [done|]. by rewrite IH. }
  assert (Hsa : forall l, submits (l ++ [c]) = submits l ++ submits [c]).
  { intros l. induction l as [|[a|] l IHl]; simpl; try done. by rewrite IHl. }
  assert (Ht : transcript (reachable cs) = transcript (reachable cs')).
  { unfold reachable. rewrite !(run_calls_transcript _ _ new_ChatServer_ok), Hs. done. }
  split.
  - rewrite !run_call_reply_lines by apply reachable_ok. by rewrite Ht.
  - unfold reachable. rewrite !(run_calls_transcript _ _ new_ChatServer_ok), !Hsa, Hs. done.
Qed.

End RunTheorems.

(* ===================================================================== *)
(** ** The client's reserved input (C9) *)
(* ===================================================================== *)

Section ReservedInput.

Import Client ClientMain.

(** C9 as stated fails: a line is trimmed before the comparison, so the
    typed text [" exit"], read as the line [" exit\n"], also ends the
    session. *)
Lemma client_exit_not_literal :
  ~ (forall t : string,
       client_step "bob" (t ++ byte_str 10) = Quit <-> t = "exit"%string).
Proof.
  intros H. destruct (H " exit"%string) as [H1 _].
  specialize (H1 eq_refl). discriminate H1.
Qed.

(** C9 (amended): for the typed text [t], read as the line [t ++ "\n"], the
    client stops without a call exactly when [t] with leading and trailing
    white space removed is ["exit"] (case-sensitively); otherwise it submits
    that trimmed text, which is the empty message when [t] is only white
    space. *)
Theorem client_step_typed_text (name t : string) :
  let line := (t ++ byte_str 10)%string in
  (client_step name line = Quit <-> TrimSpace t = "exit"%string) /\
  (client_step name line = Quit \/
   client_step name line = Send (mkMessageArgs name (TrimSpace t))) /\
  (rune_run space_runes (list_ascii_of_string t) ->
   client_step name line = Send (mkMessageArgs name EmptyString)).
Proof.
  intros line. unfold line, client_step. rewrite TrimSpace_newline.
  split; [|split].
  - destruct (String.eqb (TrimSpace t) "exit") eqn:E.
    + apply String.eqb_eq in E. by split.
    + apply String.eqb_neq in E. split; [discriminate|done].
  - destruct (String.eqb (TrimSpace t) "exit"); [by left|by right].
  - intros Hrun. rewrite (TrimSpace_run t Hrun). reflexivity.
Qed.

End ReservedInput.
